(** * vosk_recognition.py: microphone queue, coalescing generator, console loop

    A shallow embedding of [src/vosk_recognition.py].  The program has two
    threads of control: the audio driver, which calls
    [MicrophoneStream.callback] once per block, and the main thread, which
    pulls merged buffers out of [MicrophoneStream.generator] and feeds them to
    the recognizer.  The only state they share is [self.buff], a
    [queue.Queue].  The embedding makes the interleaving explicit: a run is a
    list of events, each either a write into the queue by the producer or one
    queue operation of the consumer. *)

From Stdlib Require Import String Ascii ZArith NArith Bool Lia List.
Import ListNotations.
Local Open Scope list_scope.

Set Implicit Arguments.

(** ** Bytes *)

Definition bytes := list Byte.byte.

(** [b"".join(data)] *)
Definition join (data : list bytes) : bytes := List.concat data.

(** ** queue.Queue

    [queue.Queue()] without a [maxsize] is an unbounded FIFO: [put] appends
    at the tail and never blocks, [get] removes the head.  With [block=True]
    (the default) [get] suspends the caller on an empty queue; with
    [block=False] it raises [queue.Empty] there.  The elements of
    [self.buff] are [bytes] objects or [None]; [None] is what the generator
    tests with [chunk is None], the end-of-stream marker. *)
Module Queue.

Definition item := option bytes.

Definition t := list item.

Definition empty : t := [].

Definition put (q : t) (x : item) : t := q ++ [x].

Inductive got :=
| Got (x : item) (q' : t)   (* the head, and the queue without it *)
| Empty                     (* raise queue.Empty *)
| Blocks.                   (* the caller stays suspended *)

Definition get (block : bool) (q : t) : got :=
  match q with
  | x :: q' => Got x q'
  | [] => if block then Blocks else Empty
  end.

(** [n] successive blocking [get]s by one consumer with no [put] in
    between: the values returned and the queue left, or [None] as
    soon as one of them would stay suspended. *)
Fixpoint gets (n : nat) (q : t) : option (list item * t) :=
  match n with
  | O => Some ([], q)
  | S n' =>
      match get true q with
      | Got x q' =>
          match gets n' q' with
          | Some (xs, q'') => Some (x :: xs, q'')
          | None => None
          end
      | _ => None
      end
  end.

Definition puts (q : t) (xs : list item) : t := fold_left put xs q.

End Queue.

(** ** MicrophoneStream *)

Inductive stream_state := Idle | Active | Closed.

(** The [sd.RawInputStream] built by [open_stream]; its callback is the bound
    method [self.callback], which is how the driver reaches [self.buff]. *)
Record RawInputStream := {
  samplerate : Z;
  blocksize : Z;
  dtype : string;
  channels : Z;
  state : stream_state
}.

Record MicrophoneStream := {
  rate : Z;
  chunk : Z;
  buff : Queue.t;
  input_stream : option RawInputStream
}.

(** [MicrophoneStream.__init__] *)
Definition init (rate chunk : Z) : MicrophoneStream :=
  {| rate := rate; chunk := chunk; buff := Queue.empty; input_stream := None |}.

(** [MicrophoneStream.open_stream] *)
Definition open_stream (self : MicrophoneStream) : MicrophoneStream :=
  {| rate := rate self; chunk := chunk self; buff := buff self;
     input_stream := Some {| samplerate := rate self; blocksize := chunk self;
                             dtype := "int16"%string; channels := 1%Z;
                             state := Idle |} |}.

Definition set_buff (self : MicrophoneStream) (q : Queue.t) : MicrophoneStream :=
  {| rate := rate self; chunk := chunk self; buff := q;
     input_stream := input_stream self |}.

Definition set_stream_state (self : MicrophoneStream) (s : stream_state)
  : MicrophoneStream :=
  {| rate := rate self; chunk := chunk self; buff := buff self;
     input_stream :=
       match input_stream self with
       | Some st => Some {| samplerate := samplerate st; blocksize := blocksize st;
                            dtype := dtype st; channels := channels st; state := s |}
       | None => None
       end |}.

(** [MicrophoneStream.callback].  [status] is a [sd.CallbackFlags], a bit
    field that is truthy when any flag is set; when it is, it is printed on
    standard error.  [bytes(indata)] copies the block, which is then put into
    the queue.  The result is what was printed (if anything) and the stream
    object afterwards. *)
Definition callback (self : MicrophoneStream) (indata : bytes) (frames : Z)
    (status : N) : option N * MicrophoneStream :=
  ((if N.eqb status 0 then None else Some status),
   set_buff self (Queue.put (buff self) (Some indata))).

(** The stream object after the driver has delivered [blocks], each a triple
    of [indata], [frames] and [status]. *)
Fixpoint delivered (self : MicrophoneStream) (blocks : list (bytes * Z * N))
  : MicrophoneStream :=
  match blocks with
  | [] => self
  | (indata, frames, status) :: blocks' =>
      delivered (snd (callback self indata frames status)) blocks'
  end.

(** ** MicrophoneStream.generator

    The generator is a coroutine; between two of its queue operations the
    producer may run.  [gen_pc] is the place where it stands: at the blocking
    [get] of line 52, at the non-blocking [get] of line 60 with the list [data]
    built so far, or finished. *)
Inductive gen_pc :=
| AtGet
| AtGetNowait (data : list bytes)
| Done.

(** What one step of the generator shows. *)
Inductive label :=
| Suspended                       (* line 52 on an empty queue *)
| Took                            (* a chunk was dequeued into [data] *)
| Yielded (data : list bytes)     (* line 68: [join data] goes to the consumer *)
| ReturnedAtGet                   (* line 54 *)
| ReturnedAtGetNowait (data : list bytes)   (* line 62, with [data] as it was *)
| Exhausted.                      (* [next] on a finished generator *)

Definition generator_step (pc : gen_pc) (q : Queue.t) : label * gen_pc * Queue.t :=
  match pc with
  | AtGet =>
      match Queue.get true q with
      | Queue.Got None q' => (ReturnedAtGet, Done, q')
      | Queue.Got (Some c) q' => (Took, AtGetNowait [c], q')
      | _ => (Suspended, AtGet, q)
      end
  | AtGetNowait data =>
      match Queue.get false q with
      | Queue.Got None q' => (ReturnedAtGetNowait data, Done, q')
      | Queue.Got (Some c) q' => (Took, AtGetNowait (data ++ [c]), q')
      | _ => (Yielded data, AtGet, q)
      end
  | Done => (Exhausted, Done, q)
  end.

(** An event of a run: the producer side puts [x], or the consumer side lets
    the generator do its next queue operation. *)
Inductive event :=
| Push (x : Queue.item)
| Tick.

(** The labels of a run from [(pc, q)], and where it ends. *)
Fixpoint run (sched : list event) (pc : gen_pc) (q : Queue.t)
  : list label * (gen_pc * Queue.t) :=
  match sched with
  | [] => ([], (pc, q))
  | Push x :: sched' => run sched' pc (Queue.put q x)
  | Tick :: sched' =>
      let '(l, pc', q') := generator_step pc q in
      let (ls, fin) := run sched' pc' q' in
      (l :: ls, fin)
  end.

(** The buffers the consumer receives, in order. *)
Fixpoint yields (ls : list label) : list bytes :=
  match ls with
  | [] => []
  | Yielded data :: ls' => join data :: yields ls'
  | _ :: ls' => yields ls'
  end.

(** What was put during a run, in order. *)
Fixpoint pushes (sched : list event) : list Queue.item :=
  match sched with
  | [] => []
  | Push x :: sched' => x :: pushes sched'
  | Tick :: sched' => pushes sched'
  end.

(** One pull by the consumer ([next(audio_generator)]) while the producer is
    quiet: the generator runs from line 52 until it yields, returns or stays
    suspended.  [drain] is the inner loop of lines 58-65. *)
Inductive pulled :=
| PYield (buf : bytes) (q' : Queue.t)
| PStop (q' : Queue.t)
| PSuspended.

Fixpoint drain (data : list bytes) (q : Queue.t) : pulled :=
  match q with
  | [] => PYield (join data) []
  | None :: q' => PStop q'
  | Some c :: q' => drain (data ++ [c]) q'
  end.

Definition pull (q : Queue.t) : pulled :=
  match q with
  | [] => PSuspended
  | None :: q' => PStop q'
  | Some c :: q' => drain [c] q'
  end.

(** ** get_asr_result *)

(** What a Python call hands back to [main]: [None] or a [str]. *)
Inductive pyval :=
| PyNone
| PyStr (s : string).

(** [str.isspace] on the code points that [str.split()] treats as
    separators, read off their UTF-8 encodings (a Rocq [string] holds the
    UTF-8 bytes of the Python [str]): U+0009-000D, U+001C-0020; U+0085,
    U+00A0; U+1680, U+2000-200A, U+2028, U+2029, U+202F, U+205F, U+3000. *)
Definition space1 (a : N) : bool :=
  ((9 <=? a) && (a <=? 13) || (28 <=? a) && (a <=? 32))%N.

Definition space2 (a b : N) : bool :=
  ((a =? 194) && ((b =? 133) || (b =? 160)))%N.

Definition space3 (a b c : N) : bool :=
  ((a =? 225) && (b =? 154) && (c =? 128)
   || (a =? 226) && (b =? 128)
      && ((128 <=? c) && (c <=? 138) || (c =? 168) || (c =? 169) || (c =? 175))
   || (a =? 226) && (b =? 129) && (c =? 159)
   || (a =? 227) && (b =? 128) && (c =? 128))%N.

(** ["".join(text.split())]: the text without its white space. *)
Fixpoint remove_whitespace (s : string) : string :=
  match s with
  | EmptyString => EmptyString
  | String a s1 =>
      if space1 (N_of_ascii a) then remove_whitespace s1
      else
        match s1 with
        | EmptyString => String a EmptyString
        | String b s2 =>
            if space2 (N_of_ascii a) (N_of_ascii b) then remove_whitespace s2
            else
              match s2 with
              | EmptyString => String a (remove_whitespace s1)
              | String c s3 =>
                  if space3 (N_of_ascii a) (N_of_ascii b) (N_of_ascii c)
                  then remove_whitespace s3
                  else String a (remove_whitespace s1)
              end
        end
  end.

(** An event of a capture session.  Inside the [with] block the queue has
    one writer, the driver calling [callback]; the consumer side is the
    [for] loop of lines 81-86 advancing the generator by one queue
    operation. *)
Inductive session_event :=
| Driver (indata : bytes) (frames : Z) (status : N)
| Consumer.

Section GetAsrResult.

(** The Vosk recognizer is taken as given: [AcceptWaveform] says whether an
    utterance is complete, [Result] gives the ["text"] field of the JSON
    document that [recognizer.Result()] returns. *)
Variable Recognizer : Type.
Variable AcceptWaveform : Recognizer -> bytes -> bool * Recognizer.
Variable Result : Recognizer -> string * Recognizer.

(** The named tuple built in [main]. *)
Record VoskStreamingASR := {
  microphone_stream : MicrophoneStream;
  recognizer : Recognizer
}.

Record session := {
  vosk_asr : VoskStreamingASR;
  audio_generator : gen_pc;
  stderr : list N
}.

Definition driver_step (s : session) (indata : bytes) (frames : Z) (status : N)
  : session :=
  let (printed, mic) :=
    callback (microphone_stream (vosk_asr s)) indata frames status in
  {| vosk_asr := {| microphone_stream := mic;
                    recognizer := recognizer (vosk_asr s) |};
     audio_generator := audio_generator s;
     stderr := match printed with
               | Some st => stderr s ++ [st]
               | None => stderr s
               end |}.

(** One consumer step: the generator does its next queue operation; on a
    yield the body of the [for] loop runs, on a return of the generator
    line 87 does.  [Some v] means that [get_asr_result] returns [v]. *)
Definition consumer_step (s : session) : option pyval * session :=
  let mic := microphone_stream (vosk_asr s) in
  let '(l, pc', q') := generator_step (audio_generator s) (buff mic) in
  let mic' := set_buff mic q' in
  let upd r := {| vosk_asr := {| microphone_stream := mic'; recognizer := r |};
                  audio_generator := pc'; stderr := stderr s |} in
  let r := recognizer (vosk_asr s) in
  match l with
  | Yielded data =>
      let content := join data in
      let (accepted, r1) := AcceptWaveform r content in
      if accepted then
        let (text, r2) := Result r1 in
        (Some (PyStr (remove_whitespace text)), upd r2)
      else (None, upd r1)
  | ReturnedAtGet | ReturnedAtGetNowait _ | Exhausted => (Some PyNone, upd r)
  | Suspended | Took => (None, upd r)
  end.

(** The body of the [with] block under a schedule: the value returned (if
    the schedule is long enough for that), the session at that point and
    the events not used. *)
Fixpoint with_block (sched : list session_event) (s : session)
  : option pyval * session * list session_event :=
  match sched with
  | [] => (None, s, [])
  | Driver indata frames status :: sched' =>
      with_block sched' (driver_step s indata frames status)
  | Consumer :: sched' =>
      match consumer_step s with
      | (Some v, s') => (Some v, s', sched')
      | (None, s') => with_block sched' s'
      end
  end.

Definition set_mic (s : session) (f : MicrophoneStream -> MicrophoneStream)
  : session :=
  {| vosk_asr := {| microphone_stream := f (microphone_stream (vosk_asr s));
                    recognizer := recognizer (vosk_asr s) |};
     audio_generator := audio_generator s; stderr := stderr s |}.

(** [get_asr_result]: open the stream, enter the [with] block (the stream
    starts), run the loop, and leave the block, which stops and closes the
    stream.  [RawInputStream.__exit__] reaches [self.buff] through the
    callback only, and the callback no longer fires: leaving the block
    writes nothing into the queue. *)
Definition get_asr_result (v : VoskStreamingASR) (err : list N)
    (sched : list session_event)
  : option pyval * session * list session_event :=
  let s0 := {| vosk_asr := {| microphone_stream :=
                                set_stream_state
                                  (open_stream (microphone_stream v)) Active;
                              recognizer := recognizer v |};
               audio_generator := AtGet; stderr := err |} in
  match with_block sched s0 with
  | (Some res, s, rest) =>
      (Some res, set_mic s (fun m => set_stream_state m Closed), rest)
  | (None, s, rest) => (None, s, rest)
  end.

End GetAsrResult.

(** No marker is queued and the generator has not returned. *)
Definition marker_free {Recognizer : Type} (s : session Recognizer) : Prop :=
  ~ In None (buff (microphone_stream (vosk_asr s)))
  /\ audio_generator s <> Done.

(** ** main *)

Inductive exn :=
| UnknownValueError
| RequestError
| WaitTimeoutError
| UnboundLocalError
| OtherError (name : string).

(** How a call of [get_asr_result] ends, seen from [main]. *)
Inductive call_outcome :=
| Returns (v : pyval)
| Raises (e : exn)
| Pending.          (* it has not come back *)

(** The three [except] clauses of lines 117-122. *)
Definition caught (e : exn) : bool :=
  match e with
  | UnknownValueError | RequestError | WaitTimeoutError => true
  | _ => false
  end.

Definition stop_phrase : string := "終わり".

Definition pyval_eqb (a b : pyval) : bool :=
  match a, b with
  | PyNone, PyNone => true
  | PyStr s, PyStr t => String.eqb s t
  | _, _ => false
  end.

(** [str(v)] inside the f-string of line 124. *)
Definition str (v : pyval) : string :=
  match v with
  | PyNone => "None"
  | PyStr s => s
  end.

Definition recog_start : string := "＜認識開始＞".
Definition recog_line (v : pyval) : string := ("認識結果: " ++ str v)%string.
Definition bye : string := "Bye".
Definition recog_end : string := "＜認識終了＞".

Inductive main_result (World : Type) :=
| Finished (stdout : list string) (w : World)
| Uncaught (e : exn) (stdout : list string) (w : World)
| StillRunning (recog_result : option pyval) (stdout : list string) (w : World).

Arguments Finished {World}.
Arguments Uncaught {World}.
Arguments StillRunning {World}.

(** How the [with sr.Microphone()] block of lines 113-122 ends, seen from
    line 124. *)
Inductive block_outcome :=
| Bound (v : pyval)     (* line 116 assigned [recog_result] *)
| Kept (e : exn)        (* an [except] clause passed; [recog_result] is as it was *)
| Raised (e : exn)      (* an exception leaves the block *)
| Waiting.              (* [get_asr_result] has not come back *)

Section Main.

(** Everything outside [main]'s own control flow is the world: the devices,
    the driver's schedule, the model, the recognizer.  Each external step
    either returns or raises (the [option exn]):
    - [setup]: lines 94-110, from [SetLogLevel] to [sr.Recognizer()];
    - [microphone]: lines 113-114, [sr.Microphone()] built and entered and
      the noise adjustment (with the exit of the block when line 114
      raises);
    - [call]: line 116, one execution of [get_asr_result];
    - [release]: the exit of the [with sr.Microphone()] block after the
      [try] statement. *)
Variable World : Type.
Variable setup : World -> option exn * World.
Variable microphone : World -> option exn * World.
Variable call : World -> call_outcome * World.
Variable release : World -> option exn * World.

(** Lines 113-122.  An exception raised while the block is left replaces
    the one that was propagating. *)
Definition microphone_block (w : World) : block_outcome * World :=
  match microphone w with
  | (Some e, w1) => (Raised e, w1)
  | (None, w1) =>
      match call w1 with
      | (Pending, w2) => (Waiting, w2)
      | (Returns v, w2) =>
          match release w2 with
          | (Some e', w3) => (Raised e', w3)
          | (None, w3) => (Bound v, w3)
          end
      | (Raises e, w2) =>
          match release w2 with
          | (Some e', w3) => (Raised e', w3)
          | (None, w3) => (if caught e then Kept e else Raised e, w3)
          end
      end
  end.

(** The outcomes of the block in the first [n] iterations from [w]. *)
Fixpoint blocks (n : nat) (w : World) : list block_outcome * World :=
  match n with
  | O => ([], w)
  | S n' =>
      let (b, w1) := microphone_block w in
      let (bs, w2) := blocks n' w1 in
      (b :: bs, w2)
  end.

(** Lines 124-127 with [recog_result] bound to [v]; [again] is the next
    iteration of the loop. *)
Definition after_call
    (again : option pyval -> World -> list string -> main_result World)
    (v : pyval) (w : World) (stdout : list string) : main_result World :=
  let stdout2 := stdout ++ [recog_line v] in
  if pyval_eqb v (PyStr stop_phrase)
  then Finished (stdout2 ++ [bye; recog_end]) w
  else again (Some v) w stdout2.

(** The [while True] loop of lines 111-127 followed by line 129, for at
    most [fuel] iterations.  [recog_result] is the local variable: [None]
    while it is unbound. *)
Fixpoint main_loop (fuel : nat) (recog_result : option pyval) (w : World)
    (stdout : list string) : main_result World :=
  match fuel with
  | O => StillRunning recog_result stdout w
  | S fuel' =>
      let stdout1 := stdout ++ [recog_start] in
      let (b, w') := microphone_block w in
      match b with
      | Waiting => StillRunning recog_result stdout1 w'
      | Raised e => Uncaught e stdout1 w'
      | Kept _ =>
          match recog_result with
          | None => Uncaught UnboundLocalError stdout1 w'
          | Some v => after_call (main_loop fuel') v w' stdout1
          end
      | Bound v => after_call (main_loop fuel') v w' stdout1
      end
  end.

Definition main (fuel : nat) (w : World) : main_result World :=
  match setup w with
  | (Some e, w0) => Uncaught e [] w0
  | (None, w0) => main_loop fuel None w0 []
  end.

End Main.

(** A world that plays a script: the outcomes of the successive calls of
    [get_asr_result], in order. *)
Definition scripted (w : list call_outcome) : call_outcome * list call_outcome :=
  match w with
  | [] => (Pending, [])
  | o :: w' => (o, w')
  end.

(** An external step that succeeds and leaves the world alone. *)
Definition quiet {World : Type} (w : World) : option exn * World := (None, w).

Section Program.

Variable Recognizer : Type.
Variable AcceptWaveform : Recognizer -> bytes -> bool * Recognizer.
Variable Result : Recognizer -> string * Recognizer.

(** The world of the whole program: the named tuple (the same
    [MicrophoneStream], hence the same queue, serves every utterance),
    standard error and the rest of the schedule. *)
Record world := {
  asr : VoskStreamingASR Recognizer;
  err : list N;
  schedule : list session_event
}.

(** Line 116 on that world.  Nothing in lines 77-87 raises one of the
    errors of [speech_recognition]: the call returns or has not come back. *)
Definition call_get_asr_result (w : world) : call_outcome * world :=
  match get_asr_result AcceptWaveform Result (asr w) (err w) (schedule w) with
  | (res, s, rest) =>
      (match res with Some v => Returns v | None => Pending end,
       {| asr := vosk_asr s; err := stderr s; schedule := rest |})
  end.

(** The steps of [main] that touch the devices and the model stay
    parameters. *)
Variable setup : world -> option exn * world.
Variable microphone : world -> option exn * world.
Variable release : world -> option exn * world.

Definition program (fuel : nat) (w : world) : main_result world :=
  main setup microphone call_get_asr_result release fuel w.

End Program.

(** ** Bookkeeping on the labels of a run *)

(** The lists that were joined and yielded. *)
Fixpoint groups (ls : list label) : list (list bytes) :=
  match ls with
  | [] => []
  | Yielded data :: ls' => data :: groups ls'
  | _ :: ls' => groups ls'
  end.

(** The chunks that sat in [data] when the generator returned: those of the
    first return of the run, none at line 54. *)
Fixpoint lost (ls : list label) : list bytes :=
  match ls with
  | [] => []
  | ReturnedAtGetNowait data :: _ => data
  | ReturnedAtGet :: _ => []
  | _ :: ls' => lost ls'
  end.

(** The chunks held by the generator. *)
Definition taken (pc : gen_pc) : list bytes :=
  match pc with
  | AtGetNowait data => data
  | _ => []
  end.

Definition total_bytes (bufs : list bytes) : nat := length (join bufs).

(** ** Bookkeeping on sessions *)



(** The status flags that [callback] prints in a schedule, in order. *)
Fixpoint flagged (sched : list session_event) : list N :=
  match sched with
  | [] => []
  | Driver _ _ status :: sched' =>
      if N.eqb status 0 then flagged sched' else status :: flagged sched'
  | Consumer :: sched' => flagged sched'
  end.



(** ** Small instances used to run the definitions *)

Module Example.

(** A recognizer that takes every buffer for a complete utterance and
    always hears [text]. *)
Definition always_accept (r : unit) (content : bytes) : bool * unit := (true, r).

Definition says (text : string) (r : unit) : string * unit := (text, r).

(** The named tuple as [main] builds it, for a 16 kHz device. *)
Definition fresh_asr : VoskStreamingASR unit :=
  {| microphone_stream := init 16000 8000; recognizer := tt |}.

(** One block arrives, then the consumer takes it and finds the queue
    empty. *)
Definition one_block : list session_event :=
  [Driver [Byte.x01] 1 0; Consumer; Consumer].

(** A recognizer that counts the buffers it has been given and takes the
    second one, whatever it holds, for the end of the utterance. *)
Definition accept_second (r : nat) (content : bytes) : bool * nat :=
  (Nat.eqb r 1, S r).

Definition hears (text : string) (r : nat) : string * nat := (text, r).

End Example.

(** * Properties *)

(** ** The queue *)

Lemma puts_app (q : Queue.t) (xs : list Queue.item) :
  Queue.puts q xs = q ++ xs.
Proof.
  revert q; induction xs as [|x xs IH]; intro q; simpl.
  - now rewrite app_nil_r.
  - rewrite IH. unfold Queue.put. now rewrite <- app_assoc.
Qed.

Lemma gets_app (xs : list Queue.item) (q : Queue.t) :
  Queue.gets (length xs) (xs ++ q) = Some (xs, q).
Proof.
  induction xs as [|x xs IH]; simpl; [reflexivity|].
  now rewrite IH.
Qed.

Lemma delivered_buff (blocks : list (bytes * Z * N)) (self : MicrophoneStream) :
  buff (delivered self blocks)
  = buff self ++ map (fun b => Some (fst (fst b))) blocks.
Proof.
  revert self; induction blocks as [|[[indata frames] status] blocks IH];
    intro self; simpl.
  - now rewrite app_nil_r.
  - rewrite IH. simpl. unfold Queue.put. now rewrite <- app_assoc.
Qed.

(** C5. Strict FIFO: after the chunks [ps] have been put in order, followed
    by the end-of-stream marker, [length ps + 1] blocking [get]s return
    exactly the chunks in that order and then the marker, and leave the queue
    empty; the same holds when the chunks arrive through [callback]. *)
Theorem fifo_order (ps : list bytes) :
  Queue.gets (S (length ps)) (Queue.puts Queue.empty (map Some ps ++ [None]))
  = Some (map Some ps ++ [None], [])
  /\ forall (rate chunk : Z) (blocks : list (bytes * Z * N)),
       map (fun b => fst (fst b)) blocks = ps ->
       Queue.gets (S (length ps))
                  (Queue.put (buff (delivered (init rate chunk) blocks)) None)
       = Some (map Some ps ++ [None], []).
Proof.
  assert (E : Queue.gets (S (length ps)) ((map Some ps ++ [None]) ++ [])
              = Some (map Some ps ++ [None], [])).
  { replace (S (length ps)) with (length (map Some ps ++ [@None bytes])).
    - apply gets_app.
    - rewrite length_app, length_map. simpl. lia. }
  rewrite app_nil_r in E.
  split.
  - rewrite puts_app. exact E.
  - intros rate chunk blocks Hb. rewrite delivered_buff. simpl.
    unfold Queue.put. rewrite <- Hb, map_map in *. exact E.
Qed.

Lemma fifo_order_witness :
  Queue.gets 3 (Queue.put (buff (delivered (init 16000 8000)
                                   [([Byte.x01], 1%Z, 0%N); ([Byte.x02], 1%Z, 2%N)]))
                          None)
  = Some ([Some [Byte.x01]; Some [Byte.x02]; None], []).
Proof.
  exact (proj2 (fifo_order [[Byte.x01]; [Byte.x02]]) 16000%Z 8000%Z
               [([Byte.x01], 1%Z, 0%N); ([Byte.x02], 1%Z, 2%N)] eq_refl).
Defined.

(** C8. A non-blocking [get] never leaves the caller suspended, and on a
    queue without elements it raises [queue.Empty] and leaves the queue as it
    is, whatever was put and taken before; in the generator this is the
    [except] branch, which yields the list built so far. *)
Theorem get_nowait_empty :
  (forall q : Queue.t, Queue.get false q <> Queue.Blocks)
  /\ (forall q : Queue.t, length q = 0 -> Queue.get false q = Queue.Empty)
  /\ (forall (sched : list event) (pc : gen_pc) (q : Queue.t),
        snd (snd (run sched pc q)) = [] ->
        Queue.get false (snd (snd (run sched pc q))) = Queue.Empty)
  /\ (forall (data : list bytes) (q : Queue.t), length q = 0 ->
        generator_step (AtGetNowait data) q = (Yielded data, AtGet, q)).
Proof.
  repeat split.
  - intros [|x q]; discriminate.
  - intros [|x q] H; [reflexivity | discriminate].
  - intros sched pc q H. now rewrite H.
  - intros data [|x q] H; [reflexivity | discriminate].
Qed.

Lemma get_nowait_empty_witness :
  Queue.get false (snd (snd (run [Push (Some [Byte.x01]); Tick; Tick] AtGet Queue.empty)))
  = Queue.Empty
  /\ generator_step (AtGetNowait [[Byte.x01]]) []
     = (Yielded [[Byte.x01]], AtGet, []).
Proof.
  split.
  - exact (proj1 (proj2 (proj2 get_nowait_empty))
                 [Push (Some [Byte.x01]); Tick; Tick] AtGet Queue.empty eq_refl).
  - exact (proj2 (proj2 (proj2 get_nowait_empty)) [[Byte.x01]] [] eq_refl).
Defined.

(** ** The generator *)

Lemma run_app (s1 s2 : list event) : forall pc q,
  run (s1 ++ s2) pc q
  = let '(ls1, (pc1, q1)) := run s1 pc q in
    let '(ls2, fin) := run s2 pc1 q1 in
    (ls1 ++ ls2, fin).
Proof.
  induction s1 as [|[x|] s1 IH]; intros pc q; simpl.
  - now destruct (run s2 pc q).
  - apply IH.
  - destruct (generator_step pc q) as [[l pc'] q'].
    rewrite IH.
    destruct (run s1 pc' q') as [ls1 [pc1 q1]].
    now destruct (run s2 pc1 q1).
Qed.

(** A finished generator stays finished and yields nothing; what is put
    afterwards stays in the queue. *)
Lemma run_done (sched : list event) : forall q ls pc' q',
  run sched Done q = (ls, (pc', q')) ->
  Forall (eq Exhausted) ls /\ pc' = Done /\ q' = q ++ pushes sched.
Proof.
  induction sched as [|[x|] sched IH]; intros q ls pc' q'; simpl.
  - intros [= <- <- <-]. now rewrite app_nil_r.
  - intro H. destruct (IH _ _ _ _ H) as (A & B & C).
    repeat split; trivial. rewrite C. unfold Queue.put. now rewrite <- app_assoc.
  - destruct (run sched Done q) as [ls1 fin] eqn:E.
    destruct fin as [pc1 q1].
    intros [= <- <- <-]. destruct (IH _ _ _ _ E) as (A & B & C).
    repeat split; trivial. now constructor.
Qed.

Lemma exhausted_only (ls : list label) :
  Forall (eq Exhausted) ls ->
  yields ls = [] /\ groups ls = [] /\ lost ls = [] /\ ~ In ReturnedAtGet ls.
Proof.
  induction 1 as [|l ls <- _ (A & B & C & D)]; simpl; repeat split; trivial.
  - now intros [].
  - intros [H|H]; [discriminate | contradiction].
Qed.

Lemma yields_groups (ls : list label) : yields ls = map join (groups ls).
Proof.
  induction ls as [|[] ls IH]; simpl; trivial. now rewrite IH.
Qed.

Lemma join_app (xs ys : list bytes) : join (xs ++ ys) = join xs ++ join ys.
Proof. apply concat_app. Qed.

Lemma join_yields (ls : list label) :
  join (yields ls) = join (concat (groups ls)).
Proof.
  rewrite yields_groups.
  induction (groups ls) as [|g gs IH]; simpl; trivial.
  now rewrite join_app, <- IH.
Qed.

(** Conservation of the queue items along a run: what the generator held,
    what was queued and what was put is what it yielded, what it holds (or
    dropped when it returned, with the marker) and what is still queued. *)
Lemma run_account (sched : list event) : forall pc q ls pc' q',
  run sched pc q = (ls, (pc', q')) ->
  pc <> Done ->
  (pc' = Done ->
     map Some (taken pc) ++ q ++ pushes sched
     = map Some (concat (groups ls) ++ lost ls) ++ None :: q'
     /\ (In ReturnedAtGet ls -> lost ls = []))
  /\ (pc' <> Done ->
        map Some (taken pc) ++ q ++ pushes sched
        = map Some (concat (groups ls) ++ taken pc') ++ q').
Proof.
  induction sched as [|[x|] sched IH]; intros pc q ls pc' q'; simpl.
  - intros [= <- <- <-] Hpc. split; [contradiction|].
    intros _. now rewrite app_nil_r.
  - intros H Hpc. unfold Queue.put in H.
    replace (q ++ x :: pushes sched) with ((q ++ [x]) ++ pushes sched)
      by now rewrite <- app_assoc.
    now apply IH.
  - destruct (generator_step pc q) as [[l pc1] q1] eqn:Es.
    destruct (run sched pc1 q1) as [ls1 [pc2 q2]] eqn:Er.
    intros [= <- <- <-] Hpc.
    destruct pc as [|data|]; [| |contradiction]; destruct q as [|[c|] q];
      simpl in Es; injection Es as <- <- <-.
    + (* blocking get, empty queue *)
      destruct (IH _ _ _ _ _ Er Hpc) as [A B]. simpl in *.
      split; [intro H; destruct (A H) as [A1 A2]; split; trivial|exact B].
      intros [H0|H0]; [discriminate|auto].
    + (* blocking get, a chunk *)
      destruct (IH _ _ _ _ _ Er ltac:(discriminate)) as [A B]. simpl in *.
      split; [intro H; destruct (A H) as [A1 A2]; split; trivial|exact B].
      intros [H0|H0]; [discriminate|auto].
    + (* blocking get, the marker *)
      destruct (run_done _ _ Er) as (F & -> & ->).
      destruct (exhausted_only F) as (_ & G & L & _).
      split; [intros _|congruence]. simpl. rewrite G. simpl. auto.
    + (* non-blocking get, empty queue: yield *)
      destruct (IH _ _ _ _ _ Er ltac:(discriminate)) as [A B]. simpl in *.
      split.
      * intro H; destruct (A H) as [A1 A2]; split.
        -- rewrite <- app_assoc, map_app, <- app_assoc. now f_equal.
        -- intros [H0|H0]; [discriminate|auto].
      * intro H. rewrite <- app_assoc, map_app, <- app_assoc. f_equal. auto.
    + (* non-blocking get, a chunk *)
      destruct (IH _ _ _ _ _ Er ltac:(discriminate)) as [A B]. simpl in *.
      rewrite map_app, <- app_assoc in A, B. simpl in A, B.
      split; [intro H; destruct (A H) as [A1 A2]; split; trivial|exact B].
      intros [H0|H0]; [discriminate|auto].
    + (* non-blocking get, the marker: return *)
      destruct (run_done _ _ Er) as (F & -> & ->).
      destruct (exhausted_only F) as (_ & G & L & NI).
      split; [intros _|congruence]. simpl. rewrite G. simpl. split; trivial.
      intros [H0|H0]; [discriminate|contradiction].
Qed.

Lemma marker_last (ps xs : list bytes) (q : Queue.t) :
  map Some ps ++ [None] = map Some xs ++ None :: q -> ps = xs /\ q = [].
Proof.
  revert xs; induction ps as [|p ps IH]; intros [|x xs]; simpl; intro H.
  - now injection H as <-.
  - discriminate.
  - injection H as H. destruct ps; discriminate.
  - injection H as -> H. destruct (IH _ H) as [-> ->]. now split.
Qed.

Lemma marker_ahead (ps xs : list bytes) (q : Queue.t) :
  map Some ps ++ [None] = map Some xs ++ q ->
  exists cs, q = map Some cs ++ [None] /\ ps = xs ++ cs.
Proof.
  revert ps; induction xs as [|x xs IH]; intros ps; simpl; intro H.
  - now exists ps.
  - destruct ps as [|p ps]; [discriminate|]. injection H as -> H.
    destruct (IH _ H) as (cs & -> & ->). now exists cs.
Qed.

Lemma pushes_app (s1 s2 : list event) :
  pushes (s1 ++ s2) = pushes s1 ++ pushes s2.
Proof.
  induction s1 as [|[x|] s1 IH]; simpl; trivial. now rewrite IH.
Qed.

Lemma pushes_ticks (n : nat) : pushes (repeat Tick n) = [].
Proof. induction n; simpl; trivial. Qed.

(** With the marker in the queue behind [cs], pulling long enough ends the
    generator: the consumer is not left waiting. *)
Lemma reach_done (n : nat) : forall pc cs q0,
  length cs < n ->
  fst (snd (run (repeat Tick n) pc (map Some cs ++ None :: q0))) = Done.
Proof.
  induction n as [|n IH]; intros pc cs q0 Hn; [lia|].
  assert (D : forall q, fst (snd (run (repeat Tick n) Done q)) = Done).
  { intro q. destruct (run (repeat Tick n) Done q) as [ls [pc' q']] eqn:E.
    now destruct (run_done _ _ E) as (_ & -> & _). }
  simpl repeat.
  destruct pc as [|data|]; destruct cs as [|c cs]; simpl in *;
    match goal with
    | |- context [run (repeat Tick n) Done ?q] =>
        specialize (D q); destruct (run (repeat Tick n) Done q); exact D
    | |- context [run (repeat Tick n) ?pc (map Some cs ++ None :: q0)] =>
        specialize (IH pc cs q0 ltac:(lia));
        destruct (run (repeat Tick n) pc (map Some cs ++ None :: q0)); exact IH
    end.
Qed.

(** C3, as the code has it. When the chunks [ps] and then the marker have
    been put, in any interleaving with the consumer's steps, and the consumer
    keeps pulling (more than [length ps] further steps are enough), the
    generator ends with the queue empty, and the yielded buffers followed by
    the chunks it held when it returned make up the pushed bytes: the
    yielded bytes are a prefix of the pushed ones, and all of them when the
    marker was taken by the blocking [get] of line 52. *)
Theorem yielded_and_lost (sched : list event) (ps : list bytes) (n : nat) :
  pushes sched = map Some ps ++ [None] ->
  length ps < n ->
  exists ls,
    run (sched ++ repeat Tick n) AtGet Queue.empty = (ls, (Done, []))
    /\ join (yields ls) ++ join (lost ls) = join ps
    /\ (In ReturnedAtGet ls -> join (yields ls) = join ps).
Proof.
  intros Hp Hn.
  destruct (run (sched ++ repeat Tick n) AtGet Queue.empty) as [ls [pc' q']] eqn:E.
  assert (Hd : pc' = Done).
  { pose proof (run_app sched (repeat Tick n) AtGet Queue.empty) as R.
    rewrite E in R.
    destruct (run sched AtGet Queue.empty) as [ls1 [pc1 q1]] eqn:E1.
    destruct (run (repeat Tick n) pc1 q1) as [ls2 [pc2 q2]] eqn:E2.
    injection R as _ -> _.
    destruct pc1 as [|data|].
    - destruct (run_account _ _ E1 ltac:(discriminate)) as [_ B].
      specialize (B ltac:(discriminate)). simpl in B. rewrite Hp in B.
      destruct (marker_ahead _ _ _ B) as (cs & -> & ->).
      pose proof (reach_done (n := n) AtGet cs [] ltac:(rewrite length_app in Hn; lia)) as R.
      now rewrite E2 in R.
    - destruct (run_account _ _ E1 ltac:(discriminate)) as [_ B].
      specialize (B ltac:(discriminate)). simpl in B. rewrite Hp in B.
      destruct (marker_ahead _ _ _ B) as (cs & -> & ->).
      pose proof (reach_done (n := n) (AtGetNowait data) cs []
                    ltac:(rewrite length_app in Hn; lia)) as R.
      now rewrite E2 in R.
    - now destruct (run_done _ _ E2) as (_ & -> & _). }
  subst pc'.
  destruct (run_account _ _ E ltac:(discriminate)) as [A _].
  destruct (A eq_refl) as [A1 A2]. simpl in A1.
  rewrite pushes_app, pushes_ticks, app_nil_r, Hp in A1.
  destruct (marker_last _ _ _ A1) as [-> ->].
  exists ls. split; [reflexivity|]. rewrite join_app, join_yields.
  split; trivial.
  intro H. rewrite (A2 H). simpl. now rewrite app_nil_r.
Qed.

Lemma yielded_and_lost_witness :
  exists ls,
    run ([Push (Some [Byte.x01]); Tick; Push (Some [Byte.x02]); Push None]
           ++ repeat Tick 3) AtGet Queue.empty = (ls, (Done, []))
    /\ join (yields ls) ++ join (lost ls) = join [[Byte.x01]; [Byte.x02]]
    /\ (In ReturnedAtGet ls -> join (yields ls) = join [[Byte.x01]; [Byte.x02]]).
Proof.
  apply (@yielded_and_lost
           [Push (Some [Byte.x01]); Tick; Push (Some [Byte.x02]); Push None]
           [[Byte.x01]; [Byte.x02]] 3).
  - reflexivity.
  - simpl. lia.
Defined.

(** C3 as the specification states it fails: with one chunk and the marker
    both queued before the first pull the generator yields nothing, while
    the same pushes with a pull in between yield the chunk; the yielded byte
    count depends on the interleaving. *)
Lemma yields_all_pushed_counterexample :
  let b := [Byte.x01] in
  let early := [Push (Some b); Push None; Tick; Tick] in
  let late := [Push (Some b); Tick; Tick; Push None; Tick] in
  pushes early = map Some [b] ++ [None]
  /\ pushes late = pushes early
  /\ fst (snd (run early AtGet Queue.empty)) = Done
  /\ fst (snd (run late AtGet Queue.empty)) = Done
  /\ join (yields (fst (run early AtGet Queue.empty))) <> join [b]
  /\ total_bytes (yields (fst (run early AtGet Queue.empty))) = 0
  /\ total_bytes (yields (fst (run late AtGet Queue.empty))) = 1.
Proof. cbv. repeat split; trivial. discriminate. Qed.

(** C1, as the code has it. When the non-blocking [get] of line 60 returns
    the marker, the generator returns at line 62 at once: it yields neither
    then nor later, whatever is put or pulled afterwards, and the chunks in
    [data] go nowhere. *)
Theorem marker_in_drain_returns (data : list bytes) (q : Queue.t)
    (sched : list event) :
  generator_step (AtGetNowait data) (None :: q) = (ReturnedAtGetNowait data, Done, q)
  /\ yields (fst (run (Tick :: sched) (AtGetNowait data) (None :: q))) = []
  /\ fst (snd (run (Tick :: sched) (AtGetNowait data) (None :: q))) = Done.
Proof.
  split; [reflexivity|]. simpl.
  destruct (run sched Done q) as [ls [pc' q']] eqn:E. simpl.
  destruct (run_done _ _ E) as (F & -> & _).
  now destruct (exhausted_only F) as (-> & _).
Qed.

(** C1 as the specification states it fails: with one chunk accumulated and
    the marker next in the queue, no number of pulls makes the generator
    yield the accumulated chunk. *)
Lemma accumulation_yielded_counterexample :
  let b := [Byte.x01] in
  generator_step AtGet [Some b; None] = (Took, AtGetNowait [b], [None])
  /\ forall n, ~ In b (yields (fst (run (repeat Tick n) (AtGetNowait [b]) [None]))).
Proof.
  intro b.
  split; [reflexivity|]. intros [|n]; [simpl; tauto|].
  change (repeat Tick (S n)) with (Tick :: repeat Tick n).
  cbn [run generator_step Queue.get].
  match goal with
  | |- context [run ?s ?pc ?q] => destruct (run s pc q) as [ls [pc' q']] eqn:E
  end.
  destruct (run_done _ _ E) as (F & _).
  destruct (exhausted_only F) as (Y & _).
  cbn [fst yields]. rewrite Y. intros [].
Qed.

(** The list being built at line 60 is never empty, so neither is a list
    that is yielded. *)
Lemma groups_nonempty (sched : list event) : forall pc q,
  (forall data, pc = AtGetNowait data -> data <> []) ->
  Forall (fun data => data <> []) (groups (fst (run sched pc q))).
Proof.
  induction sched as [|[x|] sched IH]; intros pc q Hpc; simpl.
  - constructor.
  - now apply IH.
  - destruct (generator_step pc q) as [[l pc1] q1] eqn:Es.
    specialize (IH pc1 q1).
    destruct (run sched pc1 q1) as [ls1 fin]. simpl in *.
    destruct pc as [|data|]; destruct q as [|[c|] q];
      simpl in Es; injection Es as <- <- <-; simpl.
    + apply IH. discriminate.
    + apply IH. intros d [= <-]. discriminate.
    + apply IH. discriminate.
    + constructor; [now apply Hpc|]. apply IH. discriminate.
    + apply IH. intros d [= <-]. now destruct data.
    + apply IH. discriminate.
    + apply IH. discriminate.
    + apply IH. discriminate.
    + apply IH. discriminate.
Qed.

(** C10. In every run from the start of the generator, the yielded buffers
    are the concatenations of lists of at least one chunk each, and these
    chunks are, in order, the first items of what was queued and put (the
    order in which the queue hands them out), none of them the marker; once
    the generator has returned, no further event makes it yield. *)
Theorem yielded_buffers_nonempty (sched : list event) (q : Queue.t) :
  let ls := fst (run sched AtGet q) in
  (exists (gs : list (list bytes)) (rest : Queue.t),
     yields ls = map (@List.concat Byte.byte) gs
     /\ Forall (fun data => exists c cs, data = c :: cs) gs
     /\ q ++ pushes sched = map Some (List.concat gs) ++ rest)
  /\ (forall sched', fst (snd (run sched AtGet q)) = Done ->
        yields (fst (run (sched ++ sched') AtGet q)) = yields ls).
Proof.
  intro ls. subst ls. split.
  - exists (groups (fst (run sched AtGet q))).
    assert (Hr : exists rest,
               q ++ pushes sched
               = map Some (concat (groups (fst (run sched AtGet q)))) ++ rest).
    { destruct (run sched AtGet q) as [ls [pc' q']] eqn:E. simpl.
      destruct (run_account _ _ E ltac:(discriminate)) as [A B].
      destruct pc' as [|data|].
      + specialize (B ltac:(discriminate)). simpl in B. rewrite B.
        rewrite map_app, <- app_assoc. eauto.
      + specialize (B ltac:(discriminate)). simpl in B. rewrite B.
        rewrite map_app, <- app_assoc. eauto.
      + destruct (A eq_refl) as [A1 _]. simpl in A1. rewrite A1.
        rewrite map_app, <- app_assoc. eauto. }
    destruct Hr as [rest Hr]. exists rest.
    split; [apply yields_groups|]. split; [|exact Hr].
    pose proof (@groups_nonempty sched AtGet q ltac:(discriminate)) as H.
    eapply Forall_impl; [|exact H]. intros [|c cs] Hd; [contradiction|eauto].
  - intros sched' Hd. rewrite run_app.
    destruct (run sched AtGet q) as [ls [pc' q']] eqn:E. simpl in *. subst pc'.
    destruct (run sched' Done q') as [ls2 fin] eqn:E2. destruct fin as [pc2 q2].
    destruct (run_done _ _ E2) as (F & _).
    destruct (exhausted_only F) as (_ & G & _). simpl.
    rewrite !yields_groups.
    assert (Hg : forall l1 l2, groups (l1 ++ l2) = groups l1 ++ groups l2).
    { induction l1 as [|[] l1 IH]; intro l2; simpl; trivial. now rewrite IH. }
    now rewrite Hg, G, app_nil_r.
Qed.

Lemma yielded_buffers_nonempty_witness :
  let sched := [Push (Some [Byte.x01]); Push (Some [Byte.x02]); Tick; Tick; Tick;
                Push (Some [Byte.x03]); Tick; Tick; Push None; Tick] in
  (exists (gs : list (list bytes)) (rest : Queue.t),
     [[Byte.x01; Byte.x02]; [Byte.x03]] = map (@List.concat Byte.byte) gs
     /\ Forall (fun data => exists c cs, data = c :: cs) gs
     /\ [Some [Byte.x01]; Some [Byte.x02]; Some [Byte.x03]; None]
        = map Some (List.concat gs) ++ rest)
  /\ yields (fst (run (sched ++ [Push (Some [Byte.x04]); Tick; Tick])
                      AtGet Queue.empty))
     = [[Byte.x01; Byte.x02]; [Byte.x03]].
Proof.
  intro sched.
  destruct (yielded_buffers_nonempty sched Queue.empty) as [A B].
  split.
  - exact A.
  - exact (B [Push (Some [Byte.x04]); Tick; Tick] eq_refl).
Defined.

(** The inner loop on a queue that holds chunks only: all of them are
    taken, then [queue.Empty] ends the loop and the whole list is yielded.
    [drain] and the step machine agree on it. *)
Lemma drain_chunks (cs : list bytes) : forall data,
  drain data (map Some cs) = PYield (join (data ++ cs)) [].
Proof.
  induction cs as [|c cs IH]; intro data; simpl.
  - now rewrite app_nil_r.
  - rewrite IH. now rewrite <- app_assoc.
Qed.

Lemma run_drain (cs : list bytes) : forall data,
  run (repeat Tick (S (length cs))) (AtGetNowait data) (map Some cs)
  = (repeat Took (length cs) ++ [Yielded (data ++ cs)], (AtGet, [])).
Proof.
  induction cs as [|c cs IH]; intro data.
  - simpl. now rewrite app_nil_r.
  - change (repeat Tick (S (length (c :: cs))))
      with (Tick :: repeat Tick (S (length cs))).
    cbn [run map generator_step Queue.get]. rewrite IH.
    cbn [length repeat app]. now rewrite <- app_assoc.
Qed.

(** C6. With [b1] and [b2] both queued before the first pull, that pull
    yields one buffer, [b1] followed by [b2], and empties the queue. *)
Theorem coalesce_two (b1 b2 : bytes) :
  pull (Queue.puts Queue.empty [Some b1; Some b2]) = PYield (b1 ++ b2) []
  /\ run [Push (Some b1); Push (Some b2); Tick; Tick; Tick] AtGet Queue.empty
     = ([Took; Took; Yielded [b1; b2]], (AtGet, []))
  /\ yields (fst (run [Push (Some b1); Push (Some b2); Tick; Tick; Tick]
                      AtGet Queue.empty))
     = [b1 ++ b2].
Proof.
  repeat split; simpl; unfold join; simpl; now rewrite app_nil_r.
Qed.

(** C7. With [b1] put, pulled, and only then [b2] put, the generator yields
    two buffers, [b1] and then [b2]. *)
Theorem separate_pulls (b1 b2 : bytes) :
  pull (Queue.put Queue.empty (Some b1)) = PYield b1 []
  /\ pull (Queue.put [] (Some b2)) = PYield b2 []
  /\ run [Push (Some b1); Tick; Tick; Push (Some b2); Tick; Tick] AtGet Queue.empty
     = ([Took; Yielded [b1]; Took; Yielded [b2]], (AtGet, []))
  /\ yields (fst (run [Push (Some b1); Tick; Tick; Push (Some b2); Tick; Tick]
                      AtGet Queue.empty))
     = [b1; b2].
Proof.
  repeat split; simpl; unfold join; simpl; now rewrite ?app_nil_r.
Qed.

(** ** The capture session *)

Section SessionProperties.

Variable Recognizer : Type.
Variable AcceptWaveform : Recognizer -> bytes -> bool * Recognizer.
Variable Result : Recognizer -> string * Recognizer.

Let session := session Recognizer.

Lemma driver_step_marker_free (s : session) indata frames status :
  marker_free s -> marker_free (driver_step s indata frames status).
Proof.
  intros [Hq Hpc]. split; [|exact Hpc]. simpl. unfold Queue.put.
  intro H. apply in_app_or in H. destruct H as [H|[H|[]]];
    [now apply Hq | discriminate].
Qed.

Lemma consumer_step_marker_free (s : session) :
  marker_free s ->
  marker_free (snd (consumer_step AcceptWaveform Result s))
  /\ fst (consumer_step AcceptWaveform Result s) <> Some PyNone.
Proof.
  intros [Hq Hpc]. unfold consumer_step, marker_free.
  destruct (audio_generator s) as [|data|] eqn:Eg; [| |contradiction];
    destruct (buff (microphone_stream (vosk_asr s))) as [|[c|] q] eqn:Eb;
    simpl;
    try (exfalso; apply Hq; now left).
  - repeat split; try discriminate. tauto.
  - repeat split; try discriminate. intro H. apply Hq. now right.
  - destruct (AcceptWaveform (recognizer (vosk_asr s)) (join data)) as [[|] r1].
    + destruct (Result r1) as [text r2]. simpl.
      repeat split; try discriminate. tauto.
    + simpl. repeat split; try discriminate. tauto.
  - repeat split; try discriminate. intro H. apply Hq. now right.
Qed.

Lemma with_block_marker_free (sched : list session_event) : forall s res s' rest,
  marker_free s ->
  with_block AcceptWaveform Result sched s = (res, s', rest) ->
  marker_free s' /\ res <> Some PyNone.
Proof.
  induction sched as [|[indata frames status|] sched IH]; intros s res s' rest Hs; simpl.
  - intros [= <- <- <-]. split; [exact Hs | discriminate].
  - apply IH. now apply driver_step_marker_free.
  - destruct (consumer_step_marker_free Hs) as [H1 H2].
    destruct (consumer_step AcceptWaveform Result s) as [[v|] s1]; simpl in *.
    + intros [= <- <- <-]. now split.
    + now apply IH.
Qed.

(** A consumer waiting at line 52 on an empty queue stays there as long
    as the driver delivers nothing. *)
Lemma with_block_waits (n : nat) (s : session) :
  buff (microphone_stream (vosk_asr s)) = [] ->
  audio_generator s = AtGet ->
  fst (fst (with_block AcceptWaveform Result (repeat Consumer n) s)) = None.
Proof.
  revert s; induction n as [|n IH]; intros s Hb Hg; simpl; trivial.
  unfold consumer_step. rewrite Hg, Hb. simpl. apply IH; simpl; trivial.
Qed.

(** C2, as the code has it. No exit of the capture session puts the
    marker: the driver's callback is the only writer of the queue and it
    puts chunks, so a queue without a marker before the session has none
    after it, the session never leaves through line 87, and a normal exit
    leaves the stream closed.  A consumer waiting on an empty queue is
    released by audio only: without a delivery it stays in the session. *)
Theorem session_puts_no_marker (v : VoskStreamingASR Recognizer) (err : list N) :
  ~ In None (buff (microphone_stream v)) ->
  (forall sched res s rest,
     get_asr_result AcceptWaveform Result v err sched = (res, s, rest) ->
     ~ In None (buff (microphone_stream (vosk_asr s)))
     /\ res <> Some PyNone
     /\ (res <> None ->
         exists st, input_stream (microphone_stream (vosk_asr s)) = Some st
                    /\ state st = Closed))
  /\ (buff (microphone_stream v) = [] ->
      forall n, fst (fst (get_asr_result AcceptWaveform Result v err
                                         (repeat Consumer n))) = None).
Proof.
  intro Hv. split.
  - intros sched res s rest. unfold get_asr_result.
    match goal with
    | |- context [with_block _ _ sched ?s0] =>
        destruct (with_block AcceptWaveform Result sched s0)
          as [[r s1] rest1] eqn:E;
        assert (H0 : marker_free s0) by (split; [exact Hv | discriminate]);
        destruct (with_block_marker_free _ H0 E) as [[Hq Hpc] Hr]
    end.
    destruct r as [t|]; intros [= <- <- <-].
    + repeat split; trivial.
      intros _. simpl.
      assert (Hs : exists st0, input_stream (microphone_stream (vosk_asr s1)) = Some st0).
      { clear - E. revert E.
        match goal with
        | |- with_block _ _ _ ?s0 = _ -> _ =>
            assert (H : exists st0,
                       input_stream (microphone_stream (vosk_asr s0)) = Some st0)
              by (simpl; eauto);
            generalize dependent s0
        end.
        induction sched as [|[indata frames status|] sched IH]; intros s0 H; simpl.
        - discriminate.
        - apply IH. exact H.
        - unfold consumer_step.
          destruct (generator_step (audio_generator s0)
                      (buff (microphone_stream (vosk_asr s0)))) as [[l pc'] q'].
          destruct l; simpl;
            try (intros [= <- <- <-]; exact H);
            try (apply IH; exact H).
          destruct (AcceptWaveform (recognizer (vosk_asr s0)) (join data)) as [[|] r1].
          + destruct (Result r1) as [text r2]. intros [= <- <- <-]. exact H.
          + apply IH. exact H. }
      destruct Hs as [st0 Hs]. rewrite Hs. eexists. split; reflexivity.
    + repeat split; trivial. intro H. now contradiction H.
  - intros Hb n. unfold get_asr_result.
    match goal with
    | |- context [with_block _ _ _ ?s0] =>
        pose proof (@with_block_waits n s0 Hb eq_refl) as W;
        destruct (with_block AcceptWaveform Result (repeat Consumer n) s0)
          as [[r s1] rest1]
    end.
    simpl in W. now subst r.
Qed.

End SessionProperties.

(** C2 as the specification states it fails: a session in which one block
    arrives and the recognizer accepts it ends with the recognized text, and
    the queue it leaves holds no marker (it is empty), so that a blocking
    [get] on it would stay suspended. *)
Lemma exit_pushes_marker_counterexample :
  let out := get_asr_result Example.always_accept (Example.says "終 わり")
                            Example.fresh_asr [] Example.one_block in
  fst (fst out) = Some (PyStr stop_phrase)
  /\ buff (microphone_stream (vosk_asr (snd (fst out)))) = []
  /\ ~ In None (buff (microphone_stream (vosk_asr (snd (fst out)))))
  /\ Queue.get true (buff (microphone_stream (vosk_asr (snd (fst out)))))
     = Queue.Blocks.
Proof. cbv. repeat split; trivial. Qed.

Lemma session_puts_no_marker_witness :
  let out := get_asr_result Example.always_accept (Example.says "終 わり")
                            Example.fresh_asr [] Example.one_block in
  (~ In None (buff (microphone_stream (vosk_asr (snd (fst out)))))
   /\ fst (fst out) <> Some PyNone
   /\ (fst (fst out) <> None ->
       exists st, input_stream (microphone_stream (vosk_asr (snd (fst out))))
                  = Some st /\ state st = Closed))
  /\ fst (fst (get_asr_result Example.always_accept (Example.says "終 わり")
                              Example.fresh_asr [] (repeat Consumer 4))) = None.
Proof.
  intro out.
  pose proof (@session_puts_no_marker unit Example.always_accept
                (Example.says "終 わり") Example.fresh_asr []
                (fun H : In None [] => H)) as [A B].
  split.
  - exact (A Example.one_block (fst (fst out)) (snd (fst out)) (snd out) eq_refl).
  - exact (B eq_refl 4).
Defined.

Example remove_whitespace_ascii_and_wide :
  remove_whitespace " 終 わ　り
" = stop_phrase.
Proof. reflexivity. Qed.

(** ** The console loop *)

Lemma pyval_eqb_eq (a b : pyval) : pyval_eqb a b = true <-> a = b.
Proof.
  destruct a as [|s], b as [|t]; simpl; split; intro H;
    try reflexivity; try discriminate.
  - apply String.eqb_eq in H. now subst.
  - injection H as ->. apply String.eqb_refl.
Qed.

Lemma pyval_eqb_neq (a b : pyval) : pyval_eqb a b = false <-> a <> b.
Proof.
  split.
  - intros H E. apply pyval_eqb_eq in E. congruence.
  - intro H. destruct (pyval_eqb a b) eqn:E; trivial.
    apply pyval_eqb_eq in E. contradiction.
Qed.

Lemma last_cons {A : Type} (l : list A) : forall a d, last (a :: l) d = last l a.
Proof.
  induction l as [|b l IH]; intros a d; [reflexivity|].
  change (last (a :: b :: l) d) with (last (b :: l) d).
  now rewrite !IH.
Qed.

Section MainProperties.

Variable World : Type.
Variable setup : World -> option exn * World.
Variable microphone : World -> option exn * World.
Variable call : World -> call_outcome * World.
Variable release : World -> option exn * World.

Let block := microphone_block microphone call release.
Let loop := main_loop microphone call release.

(** One iteration whose block binds [recog_result] to [v]. *)
Lemma main_loop_bound (fuel : nat) (rr : option pyval) (w w' : World)
    (out : list string) (v : pyval) :
  block w = (Bound v, w') ->
  loop (S fuel) rr w out
  = if pyval_eqb v (PyStr stop_phrase)
    then Finished (out ++ [recog_start; recog_line v; bye; recog_end]) w'
    else loop fuel (Some v) w' (out ++ [recog_start; recog_line v]).
Proof.
  unfold block, loop. intro H. cbn [main_loop]. rewrite H. unfold after_call.
  rewrite <- !app_assoc. simpl. reflexivity.
Qed.


Lemma main_loop_continues (vs : list pyval) : forall fuel rr w w1 out,
  blocks microphone call release (length vs) w = (map Bound vs, w1) ->
  Forall (fun v => v <> PyStr stop_phrase) vs ->
  loop (length vs + fuel) rr w out
  = loop fuel (last (map Some vs) rr) w1
         (out ++ flat_map (fun v => [recog_start; recog_line v]) vs).
Proof.
  induction vs as [|v vs IH]; intros fuel rr w w1 out Hc Hf.
  - simpl in *. injection Hc as <-. now rewrite app_nil_r.
  - simpl in Hc.
    destruct (microphone_block microphone call release w) as [b w0] eqn:E.
    destruct (blocks microphone call release (length vs) w0) as [bs w2] eqn:E2.
    injection Hc as -> -> ->.
    inversion Hf as [|? ? Hv Hf']; subst.
    change (length (v :: vs) + fuel) with (S (length vs + fuel)).
    rewrite (@main_loop_bound _ rr w w0 out v E).
    apply pyval_eqb_neq in Hv. rewrite Hv.
    rewrite (IH fuel (Some v) w0 w1 _ E2 Hf').
    f_equal.
    + symmetry. apply (last_cons (map Some vs) (Some v) rr).
    + now rewrite <- app_assoc.
Qed.


(** C9. Each iteration of the loop runs one capture session and prints
    the start line and then the text it returned ([None] is printed as
    such).  As long as the results differ from the stop phrase the loop goes
    on: after [length vs] sessions that returned [vs] it has printed these
    two lines for each and is still running.  When the next result is the
    stop phrase, the loop prints it, then [Bye], leaves the loop and prints
    the closing line; no further session is run. *)
Theorem console_loop (vs : list pyval) (w w0 w1 : World) :
  setup w = (None, w0) ->
  blocks microphone call release (length vs) w0 = (map Bound vs, w1) ->
  Forall (fun v => v <> PyStr "終わり") vs ->
  let shown := fun v => match v with PyNone => "None"%string | PyStr s => s end in
  let lines :=
    flat_map (fun v => ["＜認識開始＞"%string;
                        String.append "認識結果: " (shown v)]) vs in
  main setup microphone call release (length vs) w
  = StillRunning (last (map Some vs) None) lines w1
  /\ forall (fuel : nat) (w2 : World),
       microphone_block microphone call release w1 = (Bound (PyStr "終わり"), w2) ->
       main setup microphone call release (length vs + S fuel) w
       = Finished (lines ++ ["＜認識開始＞"%string; "認識結果: 終わり"%string;
                             "Bye"%string; "＜認識終了＞"%string]) w2.
Proof.
  intros Hs Hc Hf shown lines. unfold main. rewrite Hs. split.
  - rewrite <- (Nat.add_0_r (length vs)) at 1.
    exact (@main_loop_continues vs 0 None w0 w1 [] Hc Hf).
  - intros fuel w2 H. fold loop.
    rewrite (@main_loop_continues vs (S fuel) None w0 w1 [] Hc Hf).
    rewrite (@main_loop_bound fuel _ w1 w2 _ (PyStr stop_phrase) H).
    rewrite (proj2 (pyval_eqb_eq _ _) eq_refl). reflexivity.
Qed.


End MainProperties.





Lemma console_loop_witness :
  main quiet quiet scripted quiet 2
       [Returns (PyStr "はい"); Returns PyNone;
        Returns (PyStr "終わり"); Returns (PyStr "後")]
  = StillRunning (Some PyNone)
                 ["＜認識開始＞"%string; "認識結果: はい"%string;
                  "＜認識開始＞"%string; "認識結果: None"%string]
                 [Returns (PyStr "終わり"); Returns (PyStr "後")]
  /\ main quiet quiet scripted quiet 5
          [Returns (PyStr "はい"); Returns PyNone;
           Returns (PyStr "終わり"); Returns (PyStr "後")]
     = Finished ["＜認識開始＞"%string; "認識結果: はい"%string;
                 "＜認識開始＞"%string; "認識結果: None"%string;
                 "＜認識開始＞"%string; "認識結果: 終わり"%string;
                 "Bye"%string; "＜認識終了＞"%string]
                [Returns (PyStr "後")].
Proof.
  assert (F : Forall (fun v => v <> PyStr "終わり") [PyStr "はい"; PyNone]).
  { repeat constructor; discriminate. }
  destruct (@console_loop _ quiet quiet scripted quiet [PyStr "はい"; PyNone]
              [Returns (PyStr "はい"); Returns PyNone;
               Returns (PyStr "終わり"); Returns (PyStr "後")]
              _ [Returns (PyStr "終わり"); Returns (PyStr "後")]
              eq_refl eq_refl F) as [A B].
  split.
  - exact A.
  - exact (B 2 [Returns (PyStr "後")] eq_refl).
Defined.

(** A failure to open the microphone is not caught: it ends [main] in the
    first iteration, after the start line. *)
Example microphone_failure_ends_main :
  main quiet (fun w : list call_outcome => (Some (OtherError "OSError"), w))
       scripted quiet 3 [Returns (PyStr "はい")]
  = Uncaught (OtherError "OSError") ["＜認識開始＞"%string] [Returns (PyStr "はい")].
Proof. reflexivity. Qed.

(** * Further properties of the code *)

(** ** The queue and the generator *)

(** X2. With a quiet producer, one pull on a queue that holds chunks only
    takes every one of them, yields their concatenation as a single buffer
    and leaves the queue empty, however many there are; the step machine
    does the same in one step per chunk plus the one that finds the queue
    empty. *)
Theorem pull_coalesces_all (c : bytes) (cs : list bytes) :
  pull (map Some (c :: cs)) = PYield (join (c :: cs)) []
  /\ run (repeat Tick (S (S (length cs)))) AtGet (map Some (c :: cs))
     = (repeat Took (S (length cs)) ++ [Yielded (c :: cs)], (AtGet, [])).
Proof.
  split.
  - simpl. now rewrite drain_chunks.
  - change (repeat Tick (S (S (length cs))))
      with (Tick :: repeat Tick (S (length cs))).
    cbn [run map generator_step Queue.get]. now rewrite run_drain.
Qed.

Lemma drain_marker (cs : list bytes) : forall data q',
  drain data (map Some cs ++ None :: q') = PStop q'.
Proof.
  induction cs as [|c cs IH]; intros data q'; simpl; trivial.
Qed.

Lemma run_to_marker (cs : list bytes) : forall pc q',
  pc <> Done ->
  exists ls,
    run (repeat Tick (S (length cs))) pc (map Some cs ++ None :: q')
    = (ls, (Done, q'))
    /\ yields ls = [].
Proof.
  induction cs as [|c cs IH]; intros pc q' Hpc.
  - destruct pc as [|data|]; [| |contradiction]; simpl; eauto.
  - change (repeat Tick (S (length (c :: cs))))
      with (Tick :: repeat Tick (S (length cs))).
    destruct pc as [|data|]; [| |contradiction];
      cbn [run map app generator_step Queue.get];
      match goal with
      | |- context [run _ ?pc1 _] =>
          destruct (IH pc1 q' ltac:(discriminate)) as (ls & E & Y)
      end;
      rewrite E; simpl; eauto.
Qed.

(** X3. With a quiet producer, a pull on a queue in which the marker stands
    behind some chunks consumes those chunks and the marker, yields nothing
    and ends the generator; the items behind the marker stay in the queue. *)
Theorem pull_stops_at_marker (cs : list bytes) (q' : Queue.t) :
  pull (map Some cs ++ None :: q') = PStop q'
  /\ exists ls,
       run (repeat Tick (S (length cs))) AtGet (map Some cs ++ None :: q')
       = (ls, (Done, q'))
       /\ yields ls = [].
Proof.
  split.
  - destruct cs as [|c cs]; simpl; trivial. apply drain_marker.
  - apply run_to_marker. discriminate.
Qed.

Lemma chunks_only (xs ys : list bytes) : forall q : Queue.t,
  map Some xs = map Some ys ++ q ->
  exists rest, q = map Some rest /\ xs = ys ++ rest.
Proof.
  revert xs; induction ys as [|y ys IH]; intros xs q H; simpl in H.
  - exists xs. now split.
  - destruct xs as [|x xs]; [discriminate|]. injection H as -> H.
    destruct (IH _ _ H) as (rest & -> & ->). now exists rest.
Qed.

(** X4. As long as only chunks are put (which is all [callback] ever puts),
    the generator never ends and loses nothing: in every interleaving the
    chunks it has yielded, followed by those it holds and those still
    queued, are exactly the chunks that were queued and put, in the same
    order. *)
Theorem chunks_are_conserved (sched : list event) (qs ps : list bytes)
    (ls : list label) (pc' : gen_pc) (q' : Queue.t) :
  pushes sched = map Some ps ->
  run sched AtGet (map Some qs) = (ls, (pc', q')) ->
  pc' <> Done
  /\ exists rest,
       q' = map Some rest
       /\ concat (groups ls) ++ taken pc' ++ rest = qs ++ ps
       /\ join (yields ls) ++ join (taken pc') ++ join rest = join (qs ++ ps).
Proof.
  intros Hp E.
  destruct (run_account _ _ E ltac:(discriminate)) as [A B]. simpl in A, B.
  rewrite Hp, <- map_app in A, B.
  assert (Hd : pc' <> Done).
  { intro Hd. destruct (A Hd) as [A1 _].
    assert (Hin : In None (map Some (qs ++ ps))).
    { rewrite A1. apply in_or_app. right. now left. }
    apply in_map_iff in Hin. destruct Hin as (x & Hx & _). discriminate. }
  split; [exact Hd|].
  destruct (chunks_only _ _ _ (B Hd)) as (rest & -> & Hr).
  exists rest. repeat split.
  - now rewrite app_assoc.
  - rewrite Hr, !join_app, join_yields. now rewrite app_assoc.
Qed.

Lemma chunks_are_conserved_witness :
  AtGetNowait [[Byte.x03]] <> Done
  /\ exists rest,
       [Some [Byte.x04]] = map Some rest
       /\ concat (groups [Took; Took; Yielded [[Byte.x01]; [Byte.x02]]; Took])
          ++ taken (AtGetNowait [[Byte.x03]]) ++ rest
          = [[Byte.x01]] ++ [[Byte.x02]; [Byte.x03]; [Byte.x04]]
       /\ join (yields [Took; Took; Yielded [[Byte.x01]; [Byte.x02]]; Took])
          ++ join (taken (AtGetNowait [[Byte.x03]])) ++ join rest
          = join ([[Byte.x01]] ++ [[Byte.x02]; [Byte.x03]; [Byte.x04]]).
Proof.
  exact (@chunks_are_conserved
           [Tick; Push (Some [Byte.x02]); Tick; Tick; Push (Some [Byte.x03]);
            Tick; Push (Some [Byte.x04])]
           [[Byte.x01]] [[Byte.x02]; [Byte.x03]; [Byte.x04]]
           _ _ _ eq_refl eq_refl).
Defined.

(** ** The capture session, continued *)



Section SessionDevice.

Variable Recognizer : Type.
Variable AcceptWaveform : Recognizer -> bytes -> bool * Recognizer.
Variable Result : Recognizer -> string * Recognizer.

Lemma consumer_step_keeps (s : session Recognizer) :
  let s1 := snd (consumer_step AcceptWaveform Result s) in
  stderr s1 = stderr s
  /\ rate (microphone_stream (vosk_asr s1)) = rate (microphone_stream (vosk_asr s))
  /\ chunk (microphone_stream (vosk_asr s1)) = chunk (microphone_stream (vosk_asr s))
  /\ input_stream (microphone_stream (vosk_asr s1))
     = input_stream (microphone_stream (vosk_asr s)).
Proof.
  unfold consumer_step.
  destruct (generator_step (audio_generator s)
              (buff (microphone_stream (vosk_asr s)))) as [[l pc'] q'].
  destruct l; simpl; try (repeat split; reflexivity).
  destruct (AcceptWaveform (recognizer (vosk_asr s)) (join data)) as [[|] r1];
    [destruct (Result r1) as [text r2]|]; simpl; repeat split; reflexivity.
Qed.

Lemma with_block_keeps (sched : list session_event) : forall s res s' rest,
  with_block AcceptWaveform Result sched s = (res, s', rest) ->
  (exists used, sched = used ++ rest /\ stderr s' = stderr s ++ flagged used)
  /\ (res = None -> rest = [])
  /\ rate (microphone_stream (vosk_asr s')) = rate (microphone_stream (vosk_asr s))
  /\ chunk (microphone_stream (vosk_asr s')) = chunk (microphone_stream (vosk_asr s))
  /\ input_stream (microphone_stream (vosk_asr s'))
     = input_stream (microphone_stream (vosk_asr s)).
Proof.
  induction sched as [|[indata frames status|] sched IH]; intros s res s' rest; simpl.
  - intros [= <- <- <-].
    split; [exists []; split; [reflexivity | simpl; now rewrite app_nil_r] | auto].
  - intro H. destruct (IH _ _ _ _ H) as ((used & Hu & He) & Hn & Hr & Hc & Hi).
    split; [|auto].
    exists (Driver indata frames status :: used). split; [now rewrite Hu|].
    rewrite He. simpl. destruct (N.eqb status 0); simpl; trivial.
    now rewrite <- app_assoc.
  - pose proof (consumer_step_keeps s) as K.
    destruct (consumer_step AcceptWaveform Result s) as [[v|] s1]; simpl in K;
      destruct K as (Ke & Kr & Kc & Ki).
    + intros [= <- <- <-].
      split; [|split; [discriminate|auto]].
      exists [Consumer]. split; [reflexivity|]. simpl. now rewrite app_nil_r.
    + intro H. destruct (IH _ _ _ _ H) as ((used & Hu & He) & Hn & Hr & Hc & Hi).
      split; [|split; [exact Hn|repeat split; congruence]].
      exists (Consumer :: used). split; [now rewrite Hu|]. simpl. congruence.
Qed.

(** X5. A status flag reported with a block is printed on standard error
    and nothing more: after a session, standard error holds what it held
    before followed by the non-zero status values of the blocks delivered
    during the session, in order; a session that has not returned has used
    the whole schedule. *)
Theorem session_logs_flagged_blocks (v : VoskStreamingASR Recognizer)
    (err : list N) (sched : list session_event) (res : option pyval)
    (s : session Recognizer) (rest : list session_event) :
  get_asr_result AcceptWaveform Result v err sched = (res, s, rest) ->
  (exists used, sched = used ++ rest /\ stderr s = err ++ flagged used)
  /\ (res = None -> rest = []).
Proof.
  unfold get_asr_result.
  match goal with
  | |- context [with_block _ _ sched ?s0] =>
      destruct (with_block AcceptWaveform Result sched s0) as [[r s1] rest1] eqn:E
  end.
  destruct (with_block_keeps _ _ E) as (Hu & Hn & _).
  destruct r as [t|]; intros [= <- <- <-]; split; trivial; discriminate.
Qed.

(** X6. Every session opens the device with the sampling rate and block
    size the stream object was built with, as 16-bit mono, and leaves
    these settings alone: after [get_asr_result] the object has the same
    [rate] and [chunk], and its stream has that rate and block size, type
    [int16], one channel, and is closed if the call returned and still
    active if it has not. *)
Theorem session_device_settings (v : VoskStreamingASR Recognizer)
    (err : list N) (sched : list session_event) (res : option pyval)
    (s : session Recognizer) (rest : list session_event) :
  get_asr_result AcceptWaveform Result v err sched = (res, s, rest) ->
  rate (microphone_stream (vosk_asr s)) = rate (microphone_stream v)
  /\ chunk (microphone_stream (vosk_asr s)) = chunk (microphone_stream v)
  /\ input_stream (microphone_stream (vosk_asr s))
     = Some {| samplerate := rate (microphone_stream v);
               blocksize := chunk (microphone_stream v);
               dtype := "int16"; channels := 1;
               state := match res with Some _ => Closed | None => Active end |}.
Proof.
  unfold get_asr_result.
  match goal with
  | |- context [with_block _ _ sched ?s0] =>
      destruct (with_block AcceptWaveform Result sched s0) as [[r s1] rest1] eqn:E
  end.
  destruct (with_block_keeps _ _ E) as (_ & _ & Hr & Hc & Hi). simpl in Hr, Hc, Hi.
  destruct r as [t|]; intros [= <- <- <-]; simpl; rewrite ?Hi; auto.
Qed.

Lemma with_block_drains (cs : list bytes) : forall data s rest r1 text r2,
  audio_generator s = AtGetNowait data ->
  buff (microphone_stream (vosk_asr s)) = map Some cs ->
  AcceptWaveform (recognizer (vosk_asr s)) (join (data ++ cs)) = (true, r1) ->
  Result r1 = (text, r2) ->
  exists s',
    with_block AcceptWaveform Result (repeat Consumer (S (length cs)) ++ rest) s
    = (Some (PyStr (remove_whitespace text)), s', rest)
    /\ buff (microphone_stream (vosk_asr s')) = []
    /\ recognizer (vosk_asr s') = r2.
Proof.
  induction cs as [|c cs IH]; intros data s rest r1 text r2 Hg Hb Ha Hr.
  - rewrite app_nil_r in Ha. simpl. unfold consumer_step.
    rewrite Hg, Hb. simpl. rewrite Ha, Hr. eauto.
  - change (repeat Consumer (S (length (c :: cs))) ++ rest)
      with (Consumer :: (repeat Consumer (S (length cs)) ++ rest)).
    cbn [with_block]. unfold consumer_step at 1. rewrite Hg, Hb.
    cbn [map generator_step Queue.get].
    apply (IH (data ++ [c])) with (r1 := r1); trivial.
    simpl. now rewrite <- app_assoc.
Qed.

(** X7. The queue outlives the session: chunks that are in it when
    [get_asr_result] is called (left there by an earlier session) are the
    first audio the recognizer gets, merged into one buffer.  If the
    recognizer accepts that buffer the call returns its text without waiting
    for a single new block, leaving the queue empty and the remaining
    schedule untouched. *)
Theorem leftover_audio_is_heard_first (v : VoskStreamingASR Recognizer)
    (err : list N) (c : bytes) (cs : list bytes) (rest : list session_event)
    (r1 r2 : Recognizer) (text : string) :
  buff (microphone_stream v) = map Some (c :: cs) ->
  AcceptWaveform (recognizer v) (join (c :: cs)) = (true, r1) ->
  Result r1 = (text, r2) ->
  exists s,
    get_asr_result AcceptWaveform Result v err
                   (repeat Consumer (S (S (length cs))) ++ rest)
    = (Some (PyStr (remove_whitespace text)), s, rest)
    /\ buff (microphone_stream (vosk_asr s)) = []
    /\ recognizer (vosk_asr s) = r2.
Proof.
  intros Hb Ha Hr. unfold get_asr_result.
  change (repeat Consumer (S (S (length cs))) ++ rest)
    with (Consumer :: (repeat Consumer (S (length cs)) ++ rest)).
  cbn [with_block]. unfold consumer_step at 1.
  cbn [audio_generator vosk_asr microphone_stream set_stream_state open_stream buff].
  rewrite Hb. cbn [map generator_step Queue.get].
  match goal with
  | |- context [with_block _ _ _ ?s1] =>
      destruct (@with_block_drains cs [c] s1 rest r1 text r2 eq_refl eq_refl Ha Hr)
        as (s' & E & Hq & Hrec)
  end.
  rewrite E. eexists. split; [reflexivity|]. simpl. now split.
Qed.

End SessionDevice.

Lemma session_logs_flagged_blocks_witness :
  let sched := [Driver [Byte.x01] 1 2; Driver [Byte.x02] 1 0; Consumer;
                Driver [Byte.x03] 1 8; Consumer; Consumer; Consumer] in
  let out := get_asr_result Example.always_accept (Example.says "はい")
                            Example.fresh_asr [4%N] sched in
  (exists used, sched = used ++ snd out
                /\ stderr (snd (fst out)) = [4%N] ++ flagged used)
  /\ (fst (fst out) = None -> snd out = []).
Proof.
  intros sched out.
  exact (@session_logs_flagged_blocks unit Example.always_accept
           (Example.says "はい") Example.fresh_asr [4%N] sched
           (fst (fst out)) (snd (fst out)) (snd out) eq_refl).
Defined.

Lemma session_device_settings_witness :
  let out := get_asr_result Example.always_accept (Example.says "はい")
                            Example.fresh_asr [] Example.one_block in
  rate (microphone_stream (vosk_asr (snd (fst out)))) = 16000%Z
  /\ chunk (microphone_stream (vosk_asr (snd (fst out)))) = 8000%Z
  /\ input_stream (microphone_stream (vosk_asr (snd (fst out))))
     = Some {| samplerate := 16000; blocksize := 8000; dtype := "int16";
               channels := 1; state := Closed |}.
Proof.
  intro out.
  exact (@session_device_settings unit Example.always_accept
           (Example.says "はい") Example.fresh_asr [] Example.one_block
           (fst (fst out)) (snd (fst out)) (snd out) eq_refl).
Defined.

Lemma leftover_audio_is_heard_first_witness :
  exists s,
    get_asr_result Example.always_accept (Example.says "はい")
      {| microphone_stream :=
           set_buff (init 16000 8000) [Some [Byte.x01]; Some [Byte.x02]];
         recognizer := tt |}
      [] (repeat Consumer 3 ++ [Driver [Byte.x03] 1 0; Consumer])
    = (Some (PyStr (remove_whitespace "はい")), s,
       [Driver [Byte.x03] 1 0; Consumer])
    /\ buff (microphone_stream (vosk_asr s)) = []
    /\ recognizer (vosk_asr s) = tt.
Proof.
  exact (@leftover_audio_is_heard_first unit Example.always_accept
           (Example.says "はい")
           {| microphone_stream :=
                set_buff (init 16000 8000) [Some [Byte.x01]; Some [Byte.x02]];
              recognizer := tt |}
           [] [Byte.x01] [[Byte.x02]] [Driver [Byte.x03] 1 0; Consumer]
           tt tt "はい" eq_refl eq_refl eq_refl).
Defined.

(** ** What the recognizer is given *)


Section SessionAudio.

Variable Recognizer : Type.
Variable AcceptWaveform : Recognizer -> bytes -> bool * Recognizer.
Variable Result : Recognizer -> string * Recognizer.





End SessionAudio.


(** The session of the witness: the first buffer is refused, an identical
    one is then taken, and the rest of the schedule is not used. *)
Example same_buffer_refused_then_taken :
  let out := get_asr_result Example.accept_second (Example.hears "は い")
               {| microphone_stream := init 16000 8000; recognizer := 0 |} []
               [Driver [Byte.x00] 1 0; Consumer; Consumer;
                Driver [Byte.x00] 1 1; Consumer; Consumer;
                Consumer; Driver [Byte.x06] 1 0] in
  fst (fst out) = Some (PyStr "はい")
  /\ recognizer (vosk_asr (snd (fst out))) = 2
  /\ stderr (snd (fst out)) = [1%N]
  /\ snd out = [Consumer; Driver [Byte.x06] 1 0].
Proof. cbv. repeat split. Qed.

(** ** The recognized text *)

Lemma remove_whitespace_eq (s : string) :
  remove_whitespace s
  = match s with
    | EmptyString => EmptyString
    | String a s1 =>
        if space1 (N_of_ascii a) then remove_whitespace s1
        else
          match s1 with
          | EmptyString => String a EmptyString
          | String b s2 =>
              if space2 (N_of_ascii a) (N_of_ascii b) then remove_whitespace s2
              else
                match s2 with
                | EmptyString => String a (remove_whitespace s1)
                | String c s3 =>
                    if space3 (N_of_ascii a) (N_of_ascii b) (N_of_ascii c)
                    then remove_whitespace s3
                    else String a (remove_whitespace s1)
                end
          end
    end.
Proof. destruct s; reflexivity. Qed.

Lemma remove_whitespace_no_space_upto (n : nat) : forall s,
  String.length s <= n ->
  Forall (fun a => space1 (N_of_ascii a) = false)
         (list_ascii_of_string (remove_whitespace s)).
Proof.
  induction n as [|n IH]; intros s Hn.
  - destruct s; [constructor | simpl in Hn; lia].
  - rewrite remove_whitespace_eq.
    destruct s as [|a s1]; [constructor|]. simpl in Hn.
    destruct (space1 (N_of_ascii a)) eqn:E1; [apply IH; lia|].
    destruct s1 as [|b s2]; [repeat constructor; exact E1|]. simpl in Hn.
    destruct (space2 (N_of_ascii a) (N_of_ascii b)); [apply IH; lia|].
    destruct s2 as [|c s3].
    + cbn [list_ascii_of_string]. constructor; [exact E1|]. apply IH. simpl. lia.
    + simpl in Hn.
      destruct (space3 (N_of_ascii a) (N_of_ascii b) (N_of_ascii c));
        [apply IH; lia|].
      cbn [list_ascii_of_string]. constructor; [exact E1|]. apply IH. simpl. lia.
Qed.

(** X11. The text that [get_asr_result] returns holds no ASCII white
    space: no space, tab, line feed, vertical tab, form feed, carriage return
    or separator control character (bytes 9-13 and 28-32) is left in it,
    whatever the recognizer's text was. *)
Theorem remove_whitespace_no_ascii_space (s : string) :
  Forall (fun a => space1 (N_of_ascii a) = false)
         (list_ascii_of_string (remove_whitespace s)).
Proof. apply (remove_whitespace_no_space_upto (n := String.length s)). lia. Qed.

(** X12. On a text of ASCII characters only, the returned text is the
    text with exactly its white space characters taken out: every other
    character is kept, in order. *)
Theorem remove_whitespace_ascii (s : string) :
  Forall (fun a => (N_of_ascii a < 128)%N) (list_ascii_of_string s) ->
  list_ascii_of_string (remove_whitespace s)
  = filter (fun a => negb (space1 (N_of_ascii a))) (list_ascii_of_string s).
Proof.
  induction s as [|a s1 IH]; intro H; [reflexivity|].
  cbn [list_ascii_of_string] in H. inversion H as [|? ? Ha H1]; subst.
  specialize (IH H1).
  assert (E2 : forall b, space2 (N_of_ascii a) b = false).
  { intro b. unfold space2.
    replace (N_of_ascii a =? 194)%N with false; [reflexivity|].
    symmetry. apply N.eqb_neq. lia. }
  assert (E3 : forall b c, space3 (N_of_ascii a) b c = false).
  { intros b c. unfold space3.
    replace (N_of_ascii a =? 225)%N with false by (symmetry; apply N.eqb_neq; lia).
    replace (N_of_ascii a =? 226)%N with false by (symmetry; apply N.eqb_neq; lia).
    replace (N_of_ascii a =? 227)%N with false by (symmetry; apply N.eqb_neq; lia).
    reflexivity. }
  rewrite remove_whitespace_eq. cbn [list_ascii_of_string filter].
  destruct (space1 (N_of_ascii a)) eqn:E1; cbn [negb]; [exact IH|].
  destruct s1 as [|b s2]; [reflexivity|].
  rewrite E2.
  destruct s2 as [|c s3].
  - cbn [list_ascii_of_string] in IH |- *. f_equal. exact IH.
  - rewrite E3. cbn [list_ascii_of_string] in IH |- *. f_equal. exact IH.
Qed.

Lemma remove_whitespace_ascii_witness :
  list_ascii_of_string (remove_whitespace " o wa	ri
")
  = filter (fun a => negb (space1 (N_of_ascii a)))
           (list_ascii_of_string " o wa	ri
").
Proof.
  apply remove_whitespace_ascii.
  repeat constructor.
Defined.
